(** * Fantasy analytics: power scores, sleepers and trends

    A shallow embedding of the analytics module of the fantasy-football
    front end ([calculatePowerScores], [normalizeScore], [identifySleepers],
    [analyzeTrends]) and the properties its specification states about it.

    JavaScript numbers are embedded as exact rationals extended with the
    three non-finite values of IEEE 754 ([NaN], [+Infinity], [-Infinity]):
    the rounding error of binary64 arithmetic and the sign of zero are not
    modelled.  Every arithmetic result is stored in lowest terms, so that
    two results are equal as numbers exactly when they are equal terms. *)

From Stdlib Require Import List ZArith QArith Qround Qminmax.
From Stdlib Require Import Lia Lqa Bool String Permutation Sorted.
Import ListNotations.

Set Implicit Arguments.

(* ================================================================== *)
(** ** JavaScript numbers *)
(* ================================================================== *)

Module Num.

Inductive num : Type :=
| NaN
| PInf
| NInf
| Fin (q : Q).

(** A finite result, reduced to lowest terms. *)
Definition fin (q : Q) : num := Fin (Qred q).

Definition Qltb (a b : Q) : bool :=
  match (a ?= b)%Q with Lt => true | _ => false end.

Definition is_zero (q : Q) : bool :=
  match (q ?= 0)%Q with Eq => true | _ => false end.

Definition neg (a : num) : num :=
  match a with
  | NaN => NaN
  | PInf => NInf
  | NInf => PInf
  | Fin q => fin (- q)
  end.

(** [a + b] *)
Definition add (a b : num) : num :=
  match a, b with
  | NaN, _ | _, NaN => NaN
  | PInf, NInf | NInf, PInf => NaN
  | PInf, _ | _, PInf => PInf
  | NInf, _ | _, NInf => NInf
  | Fin x, Fin y => fin (x + y)
  end.

(** [a - b] *)
Definition sub (a b : num) : num :=
  match a, b with
  | NaN, _ | _, NaN => NaN
  | PInf, PInf | NInf, NInf => NaN
  | PInf, _ | _, NInf => PInf
  | NInf, _ | _, PInf => NInf
  | Fin x, Fin y => fin (x - y)
  end.

(** The infinity of the sign of [q], for [q] not zero. *)
Definition inf_of_sign (q : Q) : num :=
  if Qltb q 0 then NInf else PInf.

(** [a * b] *)
Definition mul (a b : num) : num :=
  match a, b with
  | NaN, _ | _, NaN => NaN
  | PInf, PInf | NInf, NInf => PInf
  | PInf, NInf | NInf, PInf => NInf
  | PInf, Fin q | Fin q, PInf =>
      if is_zero q then NaN else inf_of_sign q
  | NInf, Fin q | Fin q, NInf =>
      if is_zero q then NaN else neg (inf_of_sign q)
  | Fin x, Fin y => fin (x * y)
  end.

(** [a / b].  A zero divisor is the positive zero: the only zero
    divisors the module can form are [x - x] and the length of an empty
    array. *)
Definition div (a b : num) : num :=
  match a, b with
  | NaN, _ | _, NaN => NaN
  | (PInf | NInf), (PInf | NInf) => NaN
  | PInf, Fin q => if Qltb q 0 then NInf else PInf
  | NInf, Fin q => if Qltb q 0 then PInf else NInf
  | Fin _, (PInf | NInf) => Fin 0
  | Fin x, Fin y =>
      if is_zero y
      then (if is_zero x then NaN else inf_of_sign x)
      else fin (x / y)
  end.

(** [a < b]; false as soon as one side is [NaN]. *)
Definition ltb (a b : num) : bool :=
  match a, b with
  | NaN, _ | _, NaN => false
  | _, NInf => false
  | NInf, _ => true
  | PInf, _ => false
  | _, PInf => true
  | Fin x, Fin y => Qltb x y
  end.

(** [a > b] *)
Definition gtb (a b : num) : bool := ltb b a.

(** [Math.max(a, b)] *)
Definition Math_max (a b : num) : num :=
  match a, b with
  | NaN, _ | _, NaN => NaN
  | _, _ => if ltb a b then b else a
  end.

(** [Math.min(a, b)] *)
Definition Math_min (a b : num) : num :=
  match a, b with
  | NaN, _ | _, NaN => NaN
  | _, _ => if ltb b a then b else a
  end.

(** [Math.round(a)]: the integer nearest to [a], a half going up. *)
Definition Math_round (a : num) : num :=
  match a with
  | Fin q => Fin (inject_Z (Qfloor (q + (1 # 2))))
  | _ => a
  end.

(** The number of an array length or index. *)
Definition of_nat (n : nat) : num := Fin (inject_Z (Z.of_nat n)).

(** [ToNumber] of a property that holds a number or is absent
    ([undefined] converts to [NaN]). *)
Definition ToNumber (v : option num) : num :=
  match v with
  | Some n => n
  | None => NaN
  end.

End Num.
Import Num.

(* ================================================================== *)
(** ** Completions *)
(* ================================================================== *)

(** The errors of the specification's taxonomy.  The module contains no
    [throw] statement; the type is what a call would have to complete
    with in order to signal one of them. *)
Inductive exn : Type :=
| InvalidRange
| MissingSignal (player_id : Z) (field : string)
| PreconditionViolation
| InsufficientHistory.

(** The outcome of a call: a value, or an exception thrown to the
    caller. *)
Inductive completion (A : Type) : Type :=
| Normal (a : A)
| Throw (e : exn).
Arguments Throw {A} e.

Definition bind {A B} (c : completion A) (k : A -> completion B)
  : completion B :=
  match c with
  | Normal a => k a
  | Throw e => Throw e
  end.

Notation "x <- c ;; k" := (bind c (fun x => k))
  (at level 61, c at next level, right associativity).

Definition throws {A} (c : completion A) : Prop :=
  exists e, c = Throw e.

(* ================================================================== *)
(** ** Arrays *)
(* ================================================================== *)

(** [Array.prototype.map] with a callback that is a call. *)
Fixpoint Array_map {A B} (f : A -> completion B) (l : list A)
  : completion (list B) :=
  match l with
  | [] => Normal []
  | x :: l' =>
      y <- f x ;;
      ys <- Array_map f l' ;;
      Normal (y :: ys)
  end.

(** [Array.prototype.sort] with the comparator [cmp].  The language
    requires a stable sort: [b] goes before [a] when [cmp a b > 0], a
    comparator result of [NaN] counts as [0], and elements the comparator
    does not separate keep their order.  Which algorithm an engine runs is
    left open; under a consistent comparator there is only one result
    (see [stable_ranking_unique]), computed here by insertion. *)
Fixpoint sort_insert {A} (cmp : A -> A -> num) (x : A) (l : list A)
  : list A :=
  match l with
  | [] => [x]
  | y :: l' =>
      if gtb (cmp x y) (Fin 0) then y :: sort_insert cmp x l' else x :: l
  end.

Fixpoint Array_sort {A} (cmp : A -> A -> num) (l : list A) : list A :=
  match l with
  | [] => []
  | x :: l' => sort_insert cmp x (Array_sort cmp l')
  end.

(** The index a relative [start] or [end] argument of [slice] denotes in
    an array of [len] elements. *)
Definition slice_index (len i : Z) : Z :=
  if (i <? 0)%Z then Z.max (len + i) 0 else Z.min i len.

(** [Array.prototype.slice(start, end)]; an absent [end] is the length. *)
Definition Array_slice {A} (start : Z) (end_ : option Z) (l : list A)
  : list A :=
  let len := Z.of_nat (List.length l) in
  let k := slice_index len start in
  let final :=
    match end_ with
    | Some e => slice_index len e
    | None => len
    end in
  firstn (Z.to_nat (final - k)) (skipn (Z.to_nat k) l).

(** [Array.prototype.reduce(f, init)], the callback receiving the
    accumulator, the element and its index. *)
Fixpoint reduce_from {A B} (f : B -> A -> nat -> B) (i : nat) (l : list A)
  (acc : B) : B :=
  match l with
  | [] => acc
  | x :: l' => reduce_from f (S i) l' (f acc x i)
  end.

Definition Array_reduce {A B} (f : B -> A -> nat -> B) (init : B)
  (l : list A) : B :=
  reduce_from f 0 l init.

(* ================================================================== *)
(** ** Records *)
(* ================================================================== *)

(** A player object.  A numeric property is [None] when the object does
    not have it (reading it gives [undefined]). *)
Record PlayerRecord : Type := mkPlayer {
  id : Z;
  player_name : string;
  team : string;
  position : string;
  performance_score : option num;
  projection_score : option num;
  sleeper_rating : option num;
  power_score : option num;
  expert_consensus_rank : option num;
  risk_level : option string
}.

(** [{ ...player, power_score: v }] *)
Definition with_power_score (p : PlayerRecord) (v : num) : PlayerRecord :=
  {| id := id p;
     player_name := player_name p;
     team := team p;
     position := position p;
     performance_score := performance_score p;
     projection_score := projection_score p;
     sleeper_rating := sleeper_rating p;
     power_score := Some v;
     expert_consensus_rank := expert_consensus_rank p;
     risk_level := risk_level p |}.

(** One entry of a game log. *)
Record GameRecord : Type := mkGame { points : num }.

(** The object [analyzeTrends] returns. *)
Record TrendResult : Type := mkTrend {
  trend_direction : string;
  trend_score : num
}.

(* ================================================================== *)
(** ** The analytics module *)
(* ================================================================== *)

Open Scope string_scope.
Open Scope Q_scope.

Definition normalizeScore (score min max : num) : completion num :=
  Normal (Math_max (Fin 0)
            (Math_min (Fin 100)
               (mul (div (sub score min) (sub max min)) (Fin 100)))).

(** The callback [calculatePowerScores] maps over the players. *)
Definition scorePlayer (player : PlayerRecord) : completion PlayerRecord :=
  let performanceWeight := Fin 0.4 in
  let projectionWeight := Fin 0.35 in
  let sleeperWeight := Fin 0.25 in
  normalizedPerformance <-
    normalizeScore (ToNumber (performance_score player)) (Fin 0) (Fin 100) ;;
  normalizedProjection <-
    normalizeScore (ToNumber (projection_score player)) (Fin 0) (Fin 100) ;;
  normalizedSleeper <-
    normalizeScore (ToNumber (sleeper_rating player)) (Fin 0) (Fin 10) ;;
  let powerScore :=
    add (add (mul normalizedPerformance performanceWeight)
             (mul normalizedProjection projectionWeight))
        (mul (mul normalizedSleeper sleeperWeight) (Fin 10)) in
  Normal (with_power_score player
            (div (Math_round (mul powerScore (Fin 10))) (Fin 10))).

(** The comparator [(a, b) => b.power_score - a.power_score]. *)
Definition byPowerScoreDesc (a b : PlayerRecord) : num :=
  sub (ToNumber (power_score b)) (ToNumber (power_score a)).

Definition calculatePowerScores (players : list PlayerRecord)
  : completion (list PlayerRecord) :=
  scored <- Array_map scorePlayer players ;;
  Normal (Array_sort byPowerScoreDesc scored).

(** The predicate [identifySleepers] filters with; [!==] on a property
    that is a string or absent. *)
Definition isSleeper (player : PlayerRecord) : bool :=
  gtb (ToNumber (sleeper_rating player)) (Fin 7.5)
  && gtb (sub (ToNumber (expert_consensus_rank player))
             (ToNumber (power_score player))) (Fin 10)
  && match risk_level player with
     | Some s => negb (String.eqb s "High")
     | None => true
     end.

Definition identifySleepers (players : list PlayerRecord)
  : completion (list PlayerRecord) :=
  Normal (filter isSleeper players).

(** The value of the local [trendScore] of [analyzeTrends]. *)
Definition trendScoreOf (playerData : list GameRecord) : num :=
  let recentGames := Array_slice (-4) None playerData in
  div (Array_reduce
         (fun acc game index =>
            let weight := of_nat (index + 1) in
            add acc (mul (points game) weight))
         (Fin 0) recentGames)
      (of_nat (List.length recentGames)).

(** The average [analyzeTrends] compares [trendScore] with. *)
Definition priorAverageOf (playerData : list GameRecord) : num :=
  div (Array_reduce (fun acc game (_ : nat) => add acc (points game))
         (Fin 0) (Array_slice (-8) (Some (-4)%Z) playerData))
      (Fin 4).

Definition analyzeTrends (playerData : list GameRecord)
  : completion TrendResult :=
  let trendScore := trendScoreOf playerData in
  Normal {| trend_direction :=
              if gtb trendScore (priorAverageOf playerData)
              then "Up" else "Down";
            trend_score :=
              div (Math_round (mul trendScore (Fin 10))) (Fin 10) |}.

(* ================================================================== *)
(** ** The components that show players *)
(* ================================================================== *)

(** [Array.prototype.map] with a callback that takes the element and its
    index and is not a call. *)
Fixpoint mapi_from {A B} (f : A -> nat -> B) (i : nat) (l : list A)
  : list B :=
  match l with
  | [] => []
  | x :: l' => f x i :: mapi_from f (S i) l'
  end.

Definition Array_mapi {A B} (f : A -> nat -> B) (l : list A) : list B :=
  mapi_from f 0 l.

(** The test [player.sleeper_rating > 7.5] the components use. *)
Definition ratedSleeper (player : PlayerRecord) : bool :=
  gtb (ToNumber (sleeper_rating player)) (Fin 7.5).

(** The local [sleepers] of the component [SleeperAlerts]. *)
Definition alertSleepers (players : list PlayerRecord) : list PlayerRecord :=
  Array_slice 0 (Some 5%Z) (filter ratedSleeper players).

(** The component [SleeperAlerts], as the records it renders a card for:
    [None] is the [null] it returns when there is no sleeper. *)
Definition SleeperAlerts (players : list PlayerRecord)
  : option (list PlayerRecord) :=
  let sleepers := alertSleepers players in
  if Nat.eqb (List.length sleepers) 0 then None else Some sleepers.

(** The local [filteredPlayers] of the component [PlayerRankings]. *)
Definition filteredPlayers (players : list PlayerRecord)
  (selectedPosition : string) : list PlayerRecord :=
  if String.eqb selectedPosition "all"
  then players
  else filter (fun p => String.eqb (position p) selectedPosition) players.

(** The cells of one row of the rankings table. *)
Record RankingRow : Type := mkRow {
  row_key : Z;
  row_rank : nat;
  row_name : string;
  row_team : string;
  row_pos : string;
  row_power : option num;
  row_sleeper : string
}.

(** The component [PlayerRankings], as the rows of its table body. *)
Definition PlayerRankings (players : list PlayerRecord)
  (selectedPosition : string) : list RankingRow :=
  Array_mapi
    (fun player index =>
       {| row_key := id player;
          row_rank := index + 1;
          row_name := player_name player;
          row_team := team player;
          row_pos := position player;
          row_power := power_score player;
          row_sleeper := if ratedSleeper player then "Yes" else "No" |})
    (Array_slice 0 (Some 25%Z) (filteredPlayers players selectedPosition)).

(* ================================================================== *)
(** ** Sample data *)
(* ================================================================== *)

Definition mccaffrey : PlayerRecord :=
  {| id := 1; player_name := "Christian McCaffrey"; team := "SF";
     position := "RB";
     performance_score := Some (Fin 96.1);
     projection_score := Some (Fin 92.3);
     sleeper_rating := Some (Fin 3.2);
     power_score := Some (Fin 94.2);
     expert_consensus_rank := Some (Fin 1);
     risk_level := Some "Low" |}.

Definition hill : PlayerRecord :=
  {| id := 2; player_name := "Tyreek Hill"; team := "MIA";
     position := "WR";
     performance_score := Some (Fin 93.4);
     projection_score := Some (Fin 90.2);
     sleeper_rating := Some (Fin 4.1);
     power_score := Some (Fin 91.8);
     expert_consensus_rank := Some (Fin 3);
     risk_level := Some "Low" |}.

Definition spears : PlayerRecord :=
  {| id := 4; player_name := "Tyjae Spears"; team := "TEN";
     position := "RB";
     performance_score := Some (Fin 68.9);
     projection_score := Some (Fin 75.3);
     sleeper_rating := Some (Fin 9.2);
     power_score := Some (Fin 72.1);
     expert_consensus_rank := Some (Fin 45);
     risk_level := Some "High" |}.


(** A scored record the sleeper rule selects. *)
Definition prospect : PlayerRecord :=
  {| id := 7; player_name := "Prospect"; team := "FA"; position := "WR";
     performance_score := Some (Fin 20);
     projection_score := Some (Fin 30);
     sleeper_rating := Some (Fin 8.9);
     power_score := Some (Fin 40.8);
     expert_consensus_rank := Some (Fin 60);
     risk_level := Some "Medium" |}.

(** A game log of finite point totals. *)
Definition log_of (l : list Q) : list GameRecord :=
  map (fun q => mkGame (Fin q)) l.

Definition seven_games : list GameRecord :=
  log_of [10; 12; 8; 14; 20; 18; 22].

Definition four_games : list GameRecord := log_of [1; 2; 3; 4].

(* ================================================================== *)
(** ** Vocabulary of the specification *)
(* ================================================================== *)

(** The record [scorePlayer] completes with. *)
Definition annotate (p : PlayerRecord) : PlayerRecord :=
  match scorePlayer p with
  | Normal q => q
  | Throw _ => p
  end.

(** The normaliser in the specification's words: compute
    [(value - min) / (max - min) * 100], then clamp to the closed
    interval from 0 to 100. *)
Definition normalize_spec (value min max : Q) : Q :=
  Qmax 0 (Qmin 100 ((value - min) / (max - min) * 100)).

(** The composite in the specification's words. *)
Definition power_score_spec (performance projection sleeper : Q) : Q :=
  let perf_norm := normalize_spec performance 0 100 in
  let proj_norm := normalize_spec projection 0 100 in
  let sleeper_norm := normalize_spec sleeper 0 10 in
  perf_norm * 0.40 + proj_norm * 0.35 + (sleeper_norm * 10) * 0.25.

(** [r] is [x] rounded to one decimal place: the multiple of one tenth
    nearest to [x], the upper one when [x] is half way between two. *)
Definition rounded_1dp (x r : Q) : Prop :=
  (exists k : Z, r == inject_Z k / 10)
  /\ r - (1 # 20) <= x < r + (1 # 20).

(** The three signals of a record are present and are numbers. *)
Definition has_signals (p : PlayerRecord) : Prop :=
  exists a b c : Q,
    performance_score p = Some (Fin a)
    /\ projection_score p = Some (Fin b)
    /\ sleeper_rating p = Some (Fin c).

(** The record carries a power score that is a finite number. *)
Definition is_scored (p : PlayerRecord) : Prop :=
  exists x, power_score p = Some (Fin x).

(** The power score of a scored record. *)
Definition scoreQ (p : PlayerRecord) : Q :=
  match power_score p with
  | Some (Fin x) => x
  | _ => 0
  end.

(** [a] may stand before [b] in a ranking: both are scored and the score
    of [a] is at least that of [b]. *)
Definition outranks (a b : PlayerRecord) : Prop :=
  exists x y,
    power_score a = Some (Fin x) /\ power_score b = Some (Fin y) /\ y <= x.

(** The records of a list that carry the power score [q], in the order of
    the list. *)
Definition with_score (q : Q) (l : list PlayerRecord) : list PlayerRecord :=
  filter (fun p =>
            match power_score p with
            | Some (Fin x) => Qeq_bool x q
            | _ => false
            end) l.

(** [a < b] on numbers, as a proposition. *)
Definition num_lt (a b : num) : Prop :=
  match a, b with
  | Fin x, Fin y => x < y
  | NInf, (Fin _ | PInf) => True
  | Fin _, PInf => True
  | _, _ => False
  end.



(** The sum [reduce] forms over a window, from the left. *)
Definition sum_points (l : list GameRecord) : num :=
  fold_left (fun acc g => add acc (points g)) l (Fin 0).

(** The weighted sum over a recent window of four entries. *)
Definition weighted4 (g1 g2 g3 g4 : GameRecord) : num :=
  add (add (add (add (Fin 0) (mul (points g1) (Fin 1)))
                (mul (points g2) (Fin 2)))
           (mul (points g3) (Fin 3)))
      (mul (points g4) (Fin 4)).

(** [Math.round(x * 10) / 10] *)
Definition round1 (x : num) : num :=
  div (Math_round (mul x (Fin 10))) (Fin 10).

(** Row [a] may stand above row [b]: both show a finite power score and
    that of [a] is at least that of [b]. *)
Definition row_outranks (a b : RankingRow) : Prop :=
  exists x y,
    row_power a = Some (Fin x) /\ row_power b = Some (Fin y) /\ y <= x.

(** The record without its power score. *)
Definition unscored (p : PlayerRecord) : PlayerRecord :=
  {| id := id p;
     player_name := player_name p;
     team := team p;
     position := position p;
     performance_score := performance_score p;
     projection_score := projection_score p;
     sleeper_rating := sleeper_rating p;
     power_score := None;
     expert_consensus_rank := expert_consensus_rank p;
     risk_level := risk_level p |}.

(** [a <= b] on numbers, as a proposition; false when one is [NaN]. *)
Definition num_le (a b : num) : Prop :=
  match a, b with
  | Fin x, Fin y => x <= y
  | NInf, (NInf | Fin _ | PInf) => True
  | (Fin _ | PInf), PInf => True
  | _, _ => False
  end.

(** A record that the sleeper rule selects. *)
Definition watched : PlayerRecord :=
  {| id := 8; player_name := "Watched"; team := "FA"; position := "RB";
     performance_score := Some (Fin 10);
     projection_score := Some (Fin 10);
     sleeper_rating := Some (Fin 8);
     power_score := None;
     expert_consensus_rank := Some (Fin 300);
     risk_level := Some "Low" |}.

(** A game log of eight entries after two older ones. *)
Definition ten_games : list GameRecord :=
  log_of [30; 40; 10; 12; 8; 14; 20; 18; 22; 25].

(* ================================================================== *)
(** ** Facts about numbers *)
(* ================================================================== *)

Section NumFacts.

Lemma Qltb_spec (a b : Q) : Qltb a b = true <-> a < b.
Proof.
  unfold Qltb. rewrite Qlt_alt.
  destruct (a ?= b); split; congruence.
Qed.

Lemma Qltb_false (a b : Q) : Qltb a b = false <-> b <= a.
Proof.
  rewrite <- Bool.not_true_iff_false, Qltb_spec.
  split; [apply Qnot_lt_le | apply Qle_not_lt].
Qed.

Lemma is_zero_spec (q : Q) : is_zero q = true <-> q == 0.
Proof.
  unfold is_zero. rewrite Qeq_alt.
  destruct (q ?= 0); split; congruence.
Qed.

Lemma is_zero_false (q : Q) : is_zero q = false <-> ~ q == 0.
Proof.
  rewrite <- Bool.not_true_iff_false, is_zero_spec. tauto.
Qed.


(** Clamping a finite number to the interval from 0 to 100. *)
Lemma clamp_fin (y : Q) :
  exists r : Q,
    Math_max (Fin 0) (Math_min (Fin 100) (Fin y)) = Fin r
    /\ 0 <= r <= 100
    /\ (y <= 0 -> r = 0)
    /\ (100 <= y -> r = 100)
    /\ (0 <= y <= 100 -> r == y).
Proof.
  unfold Math_min, Math_max, ltb.
  destruct (Qltb y 100) eqn:Hy.
  - apply Qltb_spec in Hy.
    destruct (Qltb 0 y) eqn:H0.
    + apply Qltb_spec in H0. exists y.
      repeat split; try lra; intros; try lra; reflexivity.
    + apply Qltb_false in H0. exists 0.
      repeat split; try lra; intros; try lra; reflexivity.
  - apply Qltb_false in Hy. exists 100.
    change (Qltb 0 100) with true. cbv iota.
    repeat split; try lra; intros; try lra; reflexivity.
Qed.

(** The quotient [normalizeScore] clamps, for a range that is not
    degenerate. *)
Lemma scaled_fin (value min max : Q) :
  min < max ->
  exists y : Q,
    mul (div (sub (Fin value) (Fin min)) (sub (Fin max) (Fin min)))
        (Fin 100) = Fin y
    /\ y == (value - min) / (max - min) * 100.
Proof.
  intros Hlt. unfold sub, div, mul, fin.
  assert (Hd : ~ Qred (max - min) == 0).
  { rewrite Qred_correct. lra. }
  apply is_zero_false in Hd. rewrite Hd.
  eexists. split; [reflexivity|].
  now rewrite !Qred_correct.
Qed.


End NumFacts.

(* ================================================================== *)
(** ** The normaliser *)
(* ================================================================== *)





(* ================================================================== *)
(** ** Sorting *)
(* ================================================================== *)

Section SortFacts.

Context {A : Type} (cmp : A -> A -> num).

Lemma sort_insert_perm (x : A) (l : list A) :
  Permutation (sort_insert cmp x l) (x :: l).
Proof.
  induction l as [|y l IH]; cbn [sort_insert].
  - apply Permutation_refl.
  - destruct (gtb (cmp x y) (Fin 0)).
    + apply perm_trans with (y :: x :: l).
      * now apply perm_skip.
      * apply perm_swap.
    + apply Permutation_refl.
Qed.

Lemma Array_sort_perm (l : list A) : Permutation (Array_sort cmp l) l.
Proof.
  induction l as [|x l IH]; simpl.
  - apply perm_nil.
  - apply perm_trans with (x :: Array_sort cmp l).
    + apply sort_insert_perm.
    + now apply perm_skip.
Qed.

(** A comparator that orders by a rational key, larger keys first, on
    the elements that are [good]. *)
Variable key : A -> Q.
Variable good : A -> Prop.
Hypothesis cmp_key :
  forall x y, good x -> good y ->
    gtb (cmp x y) (Fin 0) = Qltb (key x) (key y).

Let desc (a b : A) : Prop := key b <= key a.
Let has_key (q : Q) (a : A) : bool := Qeq_bool (key a) q.

Lemma sort_insert_sorted (x : A) (l : list A) :
  good x -> Forall good l ->
  StronglySorted desc l -> StronglySorted desc (sort_insert cmp x l).
Proof.
  intros Hx Hl Hs. induction Hs as [|y l Hs IH Hy]; cbn [sort_insert].
  - constructor; constructor.
  - inversion Hl as [|? ? Gy Gl]; subst.
    rewrite (cmp_key Hx Gy).
    destruct (Qltb (key x) (key y)) eqn:E.
    + apply Qltb_spec in E. constructor; [now apply IH|].
      eapply Permutation_Forall.
      * symmetry. apply sort_insert_perm.
      * constructor; [unfold desc; lra | exact Hy].
    + apply Qltb_false in E. constructor.
      * now constructor.
      * constructor; [exact E|].
        eapply Forall_impl; [|exact Hy].
        unfold desc. intros z Hz. lra.
Qed.

Lemma Array_sort_sorted (l : list A) :
  Forall good l -> StronglySorted desc (Array_sort cmp l).
Proof.
  induction l as [|x l IH]; simpl; intros Hl.
  - constructor.
  - inversion Hl; subst. apply sort_insert_sorted; auto.
    eapply Permutation_Forall; [symmetry; apply Array_sort_perm|].
    assumption.
Qed.

Lemma sort_insert_stable (q : Q) (x : A) (l : list A) :
  good x -> Forall good l ->
  filter (has_key q) (sort_insert cmp x l) = filter (has_key q) (x :: l).
Proof.
  intros Hx Hl. induction Hl as [|y l Gy Gl IH]; [reflexivity|].
  cbn [sort_insert]. rewrite (cmp_key Hx Gy).
  destruct (Qltb (key x) (key y)) eqn:E; [|reflexivity].
  apply Qltb_spec in E.
  cbn [filter] in *. rewrite IH. unfold has_key.
  destruct (Qeq_bool (key x) q) eqn:Ex; [|reflexivity].
  destruct (Qeq_bool (key y) q) eqn:Ey; [|reflexivity].
  apply Qeq_bool_iff in Ex, Ey. lra.
Qed.

Lemma Array_sort_stable (q : Q) (l : list A) :
  Forall good l ->
  filter (has_key q) (Array_sort cmp l) = filter (has_key q) l.
Proof.
  induction l as [|x l IH]; intros Hl; [reflexivity|].
  inversion Hl; subst. cbn [Array_sort].
  rewrite sort_insert_stable; auto.
  - cbn [filter]. now rewrite IH.
  - eapply Permutation_Forall; [symmetry; apply Array_sort_perm|].
    assumption.
Qed.

(** Two rankings of the same elements, both in descending order of key
    and both keeping elements of equal key in the same order, are the same
    list. *)
Lemma stable_ranking_unique (l1 l2 : list A) :
  StronglySorted desc l1 -> StronglySorted desc l2 ->
  (forall q, filter (has_key q) l1 = filter (has_key q) l2) ->
  l1 = l2.
Proof.
  intros S1. revert l2.
  induction S1 as [|x l1 S1 IH Hx]; intros l2 S2 Hf.
  - destruct l2 as [|y l2]; [reflexivity|].
    specialize (Hf (key y)). cbn [filter] in Hf. unfold has_key in Hf.
    rewrite Qeq_bool_refl in Hf. discriminate Hf.
  - destruct l2 as [|y l2].
    { specialize (Hf (key x)). cbn [filter] in Hf. unfold has_key in Hf.
      rewrite Qeq_bool_refl in Hf. discriminate Hf. }
    apply StronglySorted_inv in S2. destruct S2 as [S2 Hy].
    rewrite Forall_forall in Hx, Hy.
    assert (Hxy : key x <= key y).
    { assert (Hin : In x (filter (has_key (key x)) (y :: l2))).
      { rewrite <- Hf. cbn [filter]. unfold has_key.
        rewrite Qeq_bool_refl. now left. }
      apply filter_In in Hin. destruct Hin as [[->|Hin] _].
      - apply Qle_refl.
      - apply (Hy x Hin). }
    assert (Hyx : key y <= key x).
    { assert (Hin : In y (filter (has_key (key y)) (x :: l1))).
      { rewrite Hf. cbn [filter]. unfold has_key.
        rewrite Qeq_bool_refl. now left. }
      apply filter_In in Hin. destruct Hin as [[->|Hin] _].
      - apply Qle_refl.
      - apply (Hx y Hin). }
    assert (Exy : x = y).
    { specialize (Hf (key x)). cbn [filter] in Hf. unfold has_key in Hf.
      rewrite Qeq_bool_refl in Hf.
      assert (E : Qeq_bool (key y) (key x) = true).
      { apply Qeq_bool_iff. lra. }
      rewrite E in Hf. now injection Hf. }
    subst y. f_equal. apply IH; [exact S2|].
    intros q. specialize (Hf q). cbn [filter] in Hf.
    destruct (has_key q x); [now injection Hf | exact Hf].
Qed.

End SortFacts.

(* ================================================================== *)
(** ** The power score calculator *)
(* ================================================================== *)

Section PowerScoreFacts.

Lemma clamp_Q (y : Q) :
  (y <= 0 -> Qmax 0 (Qmin 100 y) == 0)
  /\ (100 <= y -> Qmax 0 (Qmin 100 y) == 100)
  /\ (0 <= y <= 100 -> Qmax 0 (Qmin 100 y) == y).
Proof.
  destruct (Q.min_spec 100 y) as [[H1 E1]|[H1 E1]];
    destruct (Q.max_spec 0 (Qmin 100 y)) as [[H2 E2]|[H2 E2]];
    repeat split; intros; lra.
Qed.

Lemma normalizeScore_fin (value min max : Q) :
  min < max ->
  exists r : Q,
    normalizeScore (Fin value) (Fin min) (Fin max) = Normal (Fin r)
    /\ r == normalize_spec value min max.
Proof.
  intros Hlt. unfold normalizeScore, normalize_spec.
  destruct (scaled_fin value Hlt) as (y & -> & Hy).
  destruct (clamp_fin y) as (r & -> & Hr & Hlo & Hhi & Hmid).
  exists r. split; [reflexivity|].
  set (y' := (value - min) / (max - min) * 100) in *.
  destruct (clamp_Q y') as (Slo & Shi & Smid).
  destruct (Qlt_le_dec 0 y) as [H0|H0].
  - destruct (Qlt_le_dec y 100) as [H1|H1].
    + rewrite Smid by lra. rewrite Hmid by lra. exact Hy.
    + rewrite Shi by lra. rewrite Hhi by lra. reflexivity.
  - rewrite Slo by lra. rewrite Hlo by lra. reflexivity.
Qed.

Lemma rounded_1dp_eq (x x' r : Q) :
  x == x' -> rounded_1dp x r -> rounded_1dp x' r.
Proof.
  intros E (Hk & Hb). split; [exact Hk|]. lra.
Qed.

Lemma round1_fin (x : Q) :
  exists r : Q, round1 (Fin x) = Fin r /\ rounded_1dp x r.
Proof.
  unfold round1, mul, Math_round, div, fin.
  change (is_zero 10) with false. cbv iota.
  set (k := Qfloor (Qred (x * 10) + (1 # 2))).
  exists (Qred (inject_Z k / 10)). split; [reflexivity|].
  assert (Hlo := Qfloor_le (Qred (x * 10) + (1 # 2))).
  assert (Hhi := Qlt_floor (Qred (x * 10) + (1 # 2))).
  fold k in Hlo, Hhi.
  rewrite inject_Z_plus in Hhi. change (inject_Z 1) with 1 in Hhi.
  rewrite Qred_correct in Hlo, Hhi.
  split.
  - exists k. apply Qred_correct.
  - rewrite Qred_correct.
    assert (E : inject_Z k / 10 == inject_Z k * (1 # 10)) by (field).
    rewrite E. lra.
Qed.

Lemma composite_fin (r1 r2 r3 : Q) :
  add (add (mul (Fin r1) (Fin 0.4)) (mul (Fin r2) (Fin 0.35)))
      (mul (mul (Fin r3) (Fin 0.25)) (Fin 10))
  = fin (Qred (Qred (r1 * 0.4) + Qred (r2 * 0.35))
         + Qred (Qred (r3 * 0.25) * 10)).
Proof. reflexivity. Qed.

Lemma scorePlayer_fin (p : PlayerRecord) (a b c : Q) :
  performance_score p = Some (Fin a) ->
  projection_score p = Some (Fin b) ->
  sleeper_rating p = Some (Fin c) ->
  exists r : Q,
    scorePlayer p = Normal (with_power_score p (Fin r))
    /\ rounded_1dp (power_score_spec a b c) r.
Proof.
  intros Ha Hb Hc. unfold scorePlayer. rewrite Ha, Hb, Hc.
  cbn [ToNumber].
  destruct (@normalizeScore_fin a 0 100) as (r1 & -> & E1);
    [reflexivity|].
  destruct (@normalizeScore_fin b 0 100) as (r2 & -> & E2);
    [reflexivity|].
  destruct (@normalizeScore_fin c 0 10) as (r3 & -> & E3);
    [reflexivity|].
  cbn [bind]. rewrite composite_fin. unfold fin.
  match goal with
  | |- context [Math_round (mul (Fin ?x) (Fin 10))] =>
      destruct (round1_fin x) as (r & Er & Hr); exists r;
      unfold round1 in Er; rewrite Er;
      split; [reflexivity|]; revert Hr; apply rounded_1dp_eq
  end.
  unfold power_score_spec.
  rewrite !Qred_correct, E1, E2, E3. ring.
Qed.

Lemma scorePlayer_annotate (p : PlayerRecord) :
  scorePlayer p = Normal (annotate p).
Proof. reflexivity. Qed.

Lemma annotate_fields (p : PlayerRecord) :
  exists v, annotate p = with_power_score p v.
Proof. eexists. reflexivity. Qed.

Lemma Array_map_scorePlayer (players : list PlayerRecord) :
  Array_map scorePlayer players = Normal (map annotate players).
Proof.
  induction players as [|p l IH]; [reflexivity|].
  cbn [Array_map map]. rewrite scorePlayer_annotate, IH. reflexivity.
Qed.

Lemma calculatePowerScores_eq (players : list PlayerRecord) :
  calculatePowerScores players
  = Normal (Array_sort byPowerScoreDesc (map annotate players)).
Proof.
  unfold calculatePowerScores. now rewrite Array_map_scorePlayer.
Qed.


End PowerScoreFacts.



Section ExampleFacts.


End ExampleFacts.




Section RankingFacts.

Lemma byPowerScoreDesc_key (x y : PlayerRecord) :
  is_scored x -> is_scored y ->
  gtb (byPowerScoreDesc x y) (Fin 0) = Qltb (scoreQ x) (scoreQ y).
Proof.
  intros (kx & Hx) (ky & Hy).
  unfold byPowerScoreDesc, scoreQ. rewrite Hx, Hy.
  cbn [ToNumber sub]. unfold gtb, ltb, fin.
  destruct (Qltb kx ky) eqn:E.
  - apply Qltb_spec in E. apply Qltb_spec. rewrite Qred_correct. lra.
  - apply Qltb_false in E. apply Qltb_false. rewrite Qred_correct. lra.
Qed.

Lemma annotate_scored (p : PlayerRecord) :
  has_signals p -> exists r, annotate p = with_power_score p (Fin r).
Proof.
  intros (a & b & c & Ha & Hb & Hc).
  destruct (scorePlayer_fin p Ha Hb Hc) as (r & Hs & _).
  exists r. unfold annotate. now rewrite Hs.
Qed.

Lemma annotate_all_scored (players : list PlayerRecord) :
  Forall has_signals players -> Forall is_scored (map annotate players).
Proof.
  intros H. apply Forall_map. eapply Forall_impl; [|exact H].
  intros p Hp. destruct (annotate_scored Hp) as (r & ->).
  exists r. reflexivity.
Qed.

Lemma sorted_outranks (l : list PlayerRecord) :
  Forall is_scored l ->
  StronglySorted (fun a b => scoreQ b <= scoreQ a) l ->
  StronglySorted outranks l.
Proof.
  intros Hl Hs. induction Hs as [|a l Hs IH Ha]; [constructor|].
  inversion Hl as [|? ? Ga Gl]; subst.
  constructor; [now apply IH|].
  rewrite Forall_forall in *. intros b Hb.
  destruct Ga as (x & Hx). destruct (Gl b Hb) as (y & Hy).
  exists x, y. repeat split; trivial.
  specialize (Ha b Hb). unfold scoreQ in Ha. now rewrite Hx, Hy in Ha.
Qed.

Lemma with_score_key (q : Q) (l : list PlayerRecord) :
  Forall is_scored l ->
  with_score q l = filter (fun p => Qeq_bool (scoreQ p) q) l.
Proof.
  intros Hl. unfold with_score. apply filter_ext_in.
  rewrite Forall_forall in Hl. intros p Hp.
  destruct (Hl p Hp) as (x & Hx). unfold scoreQ. now rewrite Hx.
Qed.

Lemma ranking_of_scored (l : list PlayerRecord) :
  Forall is_scored l ->
  StronglySorted outranks (Array_sort byPowerScoreDesc l)
  /\ forall q,
       with_score q (Array_sort byPowerScoreDesc l) = with_score q l.
Proof.
  intros Hl.
  assert (Hout : Forall is_scored (Array_sort byPowerScoreDesc l)).
  { eapply Permutation_Forall; [symmetry; apply Array_sort_perm|].
    exact Hl. }
  split.
  - apply sorted_outranks; [exact Hout|].
    apply (@Array_sort_sorted _ byPowerScoreDesc scoreQ is_scored
             byPowerScoreDesc_key l Hl).
  - intros q. rewrite !with_score_key by assumption.
    apply (@Array_sort_stable _ byPowerScoreDesc scoreQ is_scored
             byPowerScoreDesc_key q l Hl).
Qed.

End RankingFacts.

(** C3.  For every collection of records that have their three signals
    (empty or not), [calculatePowerScores] completes normally; its output
    has the length of the input, is a permutation of the input records,
    each annotated with a power score, is in descending order of power
    score, and keeps records of equal power score in their input
    order. *)
Theorem calculatePowerScores_ranking (players : list PlayerRecord) :
  Forall has_signals players ->
  exists out : list PlayerRecord,
    calculatePowerScores players = Normal out
    /\ List.length out = List.length players
    /\ Permutation out (map annotate players)
    /\ Forall (fun p => exists r, annotate p = with_power_score p (Fin r))
         players
    /\ StronglySorted outranks out
    /\ forall q, with_score q out = with_score q (map annotate players).
Proof.
  intros Hsig. rewrite calculatePowerScores_eq. eexists.
  split; [reflexivity|].
  assert (P := Array_sort_perm byPowerScoreDesc (map annotate players)).
  destruct (ranking_of_scored (annotate_all_scored Hsig)) as (Hs & Hst).
  repeat split.
  - rewrite (Permutation_length P). apply length_map.
  - exact P.
  - eapply Forall_impl; [|exact Hsig]. intros p. apply annotate_scored.
  - exact Hs.
  - exact Hst.
Qed.

Lemma calculatePowerScores_ranking_witness :
  exists out : list PlayerRecord,
    calculatePowerScores [hill; mccaffrey; hill] = Normal out
    /\ List.length out = List.length [hill; mccaffrey; hill]
    /\ Permutation out (map annotate [hill; mccaffrey; hill])
    /\ Forall (fun p => exists r, annotate p = with_power_score p (Fin r))
         [hill; mccaffrey; hill]
    /\ StronglySorted outranks out
    /\ forall q,
         with_score q out = with_score q (map annotate [hill; mccaffrey; hill]).
Proof.
  apply (@calculatePowerScores_ranking [hill; mccaffrey; hill]).
  repeat constructor.
  - exists 93.4, 90.2, 4.1. repeat split.
  - exists 96.1, 92.3, 3.2. repeat split.
  - exists 93.4, 90.2, 4.1. repeat split.
Defined.

Section MissingSignalFacts.

Lemma add_NaN_l (a : num) : add NaN a = NaN.
Proof. reflexivity. Qed.

Lemma add_NaN_r (a : num) : add a NaN = NaN.
Proof. now destruct a. Qed.

Lemma mul_NaN_l (a : num) : mul NaN a = NaN.
Proof. reflexivity. Qed.

Lemma round1_NaN : round1 NaN = NaN.
Proof. reflexivity. Qed.




End MissingSignalFacts.




(* ================================================================== *)
(** ** The sleeper classifier *)
(* ================================================================== *)

Section SleeperFacts.






End SleeperFacts.


Example identifySleepers_sample :
  identifySleepers [mccaffrey; prospect; spears; hill] = Normal [prospect].
Proof. reflexivity. Qed.

(* ================================================================== *)
(** ** The trend analyser *)
(* ================================================================== *)

Section TrendFacts.

(** [slice(-4)] is the last four entries, or all of a shorter array. *)
Lemma slice_recent {A} (l : list A) :
  Array_slice (-4) None l = skipn (List.length l - 4) l.
Proof.
  unfold Array_slice, slice_index. cbn [Z.ltb Z.compare].
  set (n := List.length l).
  assert (Hk : Z.to_nat (Z.max (Z.of_nat n + -4) 0) = (n - 4)%nat) by lia.
  rewrite Hk. apply firstn_all2.
  rewrite length_skipn. fold n. lia.
Qed.

(** [slice(-8, -4)] on an array of at most eight entries is what
    precedes the last four. *)
Lemma slice_prior {A} (l : list A) :
  (List.length l <= 8)%nat ->
  Array_slice (-8) (Some (-4)%Z) l = firstn (List.length l - 4) l.
Proof.
  intros Hn. unfold Array_slice, slice_index. cbn [Z.ltb Z.compare].
  set (n := List.length l) in *.
  assert (Hk : Z.to_nat (Z.max (Z.of_nat n + -8) 0) = 0%nat) by lia.
  rewrite Hk. cbn [skipn]. f_equal. lia.
Qed.

Lemma reduce_from_sum (l : list GameRecord) (i : nat) (acc : num) :
  reduce_from (fun acc game (_ : nat) => add acc (points game)) i l acc
  = fold_left (fun acc g => add acc (points g)) l acc.
Proof.
  revert i acc. induction l as [|g l IH]; intros i acc; cbn.
  - reflexivity.
  - apply IH.
Qed.

Lemma priorAverageOf_short (log : list GameRecord) :
  (List.length log <= 8)%nat ->
  priorAverageOf log
  = div (sum_points (firstn (List.length log - 4) log)) (Fin 4).
Proof.
  intros Hn. unfold priorAverageOf, Array_reduce, sum_points.
  now rewrite slice_prior, reduce_from_sum.
Qed.

Lemma trendScoreOf_four (log : list GameRecord) (g1 g2 g3 g4 : GameRecord) :
  skipn (List.length log - 4) log = [g1; g2; g3; g4] ->
  trendScoreOf log = div (weighted4 g1 g2 g3 g4) (Fin 4).
Proof.
  intros Hr. unfold trendScoreOf. rewrite slice_recent, Hr. reflexivity.
Qed.


Lemma analyzeTrends_eq (log : list GameRecord) :
  analyzeTrends log
  = Normal {| trend_direction :=
                if gtb (trendScoreOf log) (priorAverageOf log)
                then "Up" else "Down";
              trend_score := round1 (trendScoreOf log) |}.
Proof. reflexivity. Qed.


End TrendFacts.

(** C7, as the specification states it, fails: a log of seven entries is
    analysed without any error. *)
Lemma seven_entries_no_error :
  analyzeTrends seven_games
  = Normal {| trend_direction := "Up"; trend_score := Fin 49 |}
  /\ analyzeTrends seven_games
     <> Throw InsufficientHistory.
Proof. split; [reflexivity | discriminate]. Qed.

(** C7, amended.  For a game log of fewer than eight entries
    [analyzeTrends] raises nothing and returns a trend result, Up or Down;
    the average it compares with is the sum of the entries before the last
    four (none for a log of at most four) divided by 4. *)
Theorem analyzeTrends_short_history (log : list GameRecord) :
  (List.length log < 8)%nat ->
  exists r : TrendResult,
    analyzeTrends log = Normal r
    /\ ~ throws (analyzeTrends log)
    /\ (trend_direction r = "Up" \/ trend_direction r = "Down")
    /\ priorAverageOf log
       = div (sum_points (firstn (List.length log - 4) log)) (Fin 4).
Proof.
  intros Hn. rewrite analyzeTrends_eq. eexists.
  split; [reflexivity|]. split.
  - intros (e & H). discriminate H.
  - split.
    + cbn [trend_direction].
      destruct (gtb (trendScoreOf log) (priorAverageOf log)); auto.
    + apply priorAverageOf_short. lia.
Qed.

Lemma analyzeTrends_short_history_witness :
  exists r : TrendResult,
    analyzeTrends seven_games = Normal r
    /\ ~ throws (analyzeTrends seven_games)
    /\ (trend_direction r = "Up" \/ trend_direction r = "Down")
    /\ priorAverageOf seven_games
       = div (sum_points
                (firstn
                   (List.length seven_games - 4)
                   seven_games))
             (Fin 4).
Proof.
  apply (@analyzeTrends_short_history seven_games).
  cbn. lia.
Defined.



Section ConstantLogFacts.




End ConstantLogFacts.



(* ================================================================== *)
(** ** More on the normaliser *)
(* ================================================================== *)

Section NormaliserMore.



Lemma clamp_Q_mono (y y' : Q) :
  y <= y' -> Qmax 0 (Qmin 100 y) <= Qmax 0 (Qmin 100 y').
Proof.
  intros H.
  destruct (Q.min_spec 100 y) as [[? ?]|[? ?]];
    destruct (Q.min_spec 100 y') as [[? ?]|[? ?]];
    destruct (Q.max_spec 0 (Qmin 100 y)) as [[? ?]|[? ?]];
    destruct (Q.max_spec 0 (Qmin 100 y')) as [[? ?]|[? ?]]; lra.
Qed.

Lemma normalize_spec_mono (v v' min max : Q) :
  min < max -> v <= v' ->
  normalize_spec v min max <= normalize_spec v' min max.
Proof.
  intros Hlt Hv. unfold normalize_spec. apply clamp_Q_mono.
  assert (Hd : 0 < max - min) by lra.
  assert (Hi : 0 < / (max - min)) by now apply Qinv_lt_0_compat.
  unfold Qdiv. set (i := / (max - min)) in *. nra.
Qed.

Lemma normalize_spec_range (v min max : Q) :
  0 <= normalize_spec v min max <= 100.
Proof.
  unfold normalize_spec.
  set (y := (v - min) / (max - min) * 100).
  destruct (Q.min_spec 100 y) as [[? ?]|[? ?]];
    destruct (Q.max_spec 0 (Qmin 100 y)) as [[? ?]|[? ?]]; lra.
Qed.

End NormaliserMore.



(** X2.  On a range with [min < max], [normalizeScore] is monotone: a
    larger finite value never gets a smaller result. *)
Theorem normalizeScore_monotone (v v' min max r r' : Q) :
  min < max -> v <= v' ->
  normalizeScore (Fin v) (Fin min) (Fin max) = Normal (Fin r) ->
  normalizeScore (Fin v') (Fin min) (Fin max) = Normal (Fin r') ->
  r <= r'.
Proof.
  intros Hlt Hv Hr Hr'.
  destruct (normalizeScore_fin v Hlt) as (s & Hs & Es).
  destruct (normalizeScore_fin v' Hlt) as (s' & Hs' & Es').
  rewrite Hs in Hr. rewrite Hs' in Hr'.
  injection Hr as <-. injection Hr' as <-.
  rewrite Es, Es'. now apply normalize_spec_mono.
Qed.

Lemma normalizeScore_monotone_witness :
  normalizeScore (Fin 3.2) (Fin 0) (Fin 10) = Normal (Fin 32)
  /\ normalizeScore (Fin 4.1) (Fin 0) (Fin 10) = Normal (Fin 41)
  /\ 32 <= 41.
Proof.
  split; [reflexivity|]. split; [reflexivity|].
  apply (@normalizeScore_monotone 3.2 4.1 0 10 32 41);
    [reflexivity | discriminate | reflexivity | reflexivity].
Defined.



(* ================================================================== *)
(** ** More on the power score calculator *)
(* ================================================================== *)

Section PowerScoreMore.

Lemma grid_le (k k' : Z) :
  inject_Z k < inject_Z k' + 1 -> inject_Z k <= inject_Z k'.
Proof.
  intros H. change 1 with (inject_Z 1) in H.
  rewrite <- inject_Z_plus, <- Zlt_Qlt in H.
  rewrite <- Zle_Qle. lia.
Qed.

(** Rounding to one decimal place is monotone. *)
Lemma rounded_1dp_mono (x x' r r' : Q) :
  rounded_1dp x r -> rounded_1dp x' r' -> x <= x' -> r <= r'.
Proof.
  intros ((k & Hk) & Hlo & Hhi) ((k' & Hk') & Hlo' & Hhi') Hx.
  assert (E : r == inject_Z k * (1 # 10)) by (rewrite Hk; field).
  assert (E' : r' == inject_Z k' * (1 # 10)) by (rewrite Hk'; field).
  assert (H : inject_Z k <= inject_Z k') by (apply grid_le; lra).
  lra.
Qed.

Lemma power_score_spec_range (a b c : Q) :
  0 <= power_score_spec a b c <= 325.
Proof.
  unfold power_score_spec. cbv zeta.
  assert (Ha := normalize_spec_range a 0 100).
  assert (Hb := normalize_spec_range b 0 100).
  assert (Hc := normalize_spec_range c 0 10).
  lra.
Qed.

Lemma power_score_spec_mono (a b c a' b' c' : Q) :
  a <= a' -> b <= b' -> c <= c' ->
  power_score_spec a b c <= power_score_spec a' b' c'.
Proof.
  intros Ha Hb Hc. unfold power_score_spec. cbv zeta.
  assert (Na := @normalize_spec_mono a a' 0 100 eq_refl Ha).
  assert (Nb := @normalize_spec_mono b b' 0 100 eq_refl Hb).
  assert (Nc := @normalize_spec_mono c c' 0 10 eq_refl Hc).
  lra.
Qed.

Lemma scored_range (p : PlayerRecord) :
  has_signals p ->
  exists r, annotate p = with_power_score p (Fin r) /\ 0 <= r <= 325.
Proof.
  intros (a & b & c & Ha & Hb & Hc).
  destruct (scorePlayer_fin p Ha Hb Hc) as (r & Hs & Hr).
  exists r. split; [unfold annotate; now rewrite Hs|].
  assert (HP := power_score_spec_range a b c).
  assert (G0 : rounded_1dp 0 0).
  { split; [exists 0%Z; reflexivity | lra]. }
  assert (G1 : rounded_1dp 325 325).
  { split; [exists 3250%Z; reflexivity | lra]. }
  split.
  - apply (rounded_1dp_mono G0 Hr). lra.
  - apply (rounded_1dp_mono Hr G1). lra.
Qed.

Lemma annotate_rescored (p : PlayerRecord) (v : num) :
  annotate (with_power_score p v) = annotate p.
Proof. reflexivity. Qed.

Lemma annotate_unscored (p : PlayerRecord) :
  annotate (unscored p) = annotate p.
Proof. reflexivity. Qed.

Lemma unscored_annotate (p : PlayerRecord) :
  unscored (annotate p) = unscored p.
Proof. reflexivity. Qed.

Lemma annotate_annotate (p : PlayerRecord) :
  annotate (annotate p) = annotate p.
Proof. reflexivity. Qed.

(** Sorting a list that is already in descending order of key leaves it
    as it is. *)
Lemma Array_sort_sorted_id {A} (cmp : A -> A -> num) (key : A -> Q)
  (good : A -> Prop) :
  (forall x y, good x -> good y ->
     gtb (cmp x y) (Fin 0) = Qltb (key x) (key y)) ->
  forall l, Forall good l ->
    StronglySorted (fun a b => key b <= key a) l ->
    Array_sort cmp l = l.
Proof.
  intros Hcmp l Hl Hs. induction Hs as [|x l Hs IH Hx]; [reflexivity|].
  inversion Hl as [|? ? Gx Gl]; subst.
  cbn [Array_sort]. rewrite (IH Gl).
  destruct l as [|y l]; [reflexivity|].
  cbn [sort_insert]. inversion Gl as [|? ? Gy _]; subst.
  rewrite (Hcmp x y Gx Gy).
  inversion Hx as [|? ? Hxy _]; subst.
  apply Qltb_false in Hxy. now rewrite Hxy.
Qed.

End PowerScoreMore.

(** X4.  For a collection of records whose three signals are finite
    numbers, in or out of their domains, every power score
    [calculatePowerScores] stores is a finite number between 0 and 325:
    the weighted terms reach 40, 35 and 250. *)
Theorem calculatePowerScores_range (players : list PlayerRecord) :
  Forall has_signals players ->
  exists out : list PlayerRecord,
    calculatePowerScores players = Normal out
    /\ Forall (fun q => exists r,
                 power_score q = Some (Fin r) /\ 0 <= r <= 325) out.
Proof.
  intros Hsig. rewrite calculatePowerScores_eq. eexists.
  split; [reflexivity|].
  eapply Permutation_Forall.
  - symmetry. apply Array_sort_perm.
  - apply Forall_map. eapply Forall_impl; [|exact Hsig].
    intros p Hp. destruct (scored_range Hp) as (r & -> & Hr).
    exists r. split; [reflexivity | exact Hr].
Qed.

Lemma calculatePowerScores_range_witness :
  exists out : list PlayerRecord,
    calculatePowerScores [watched; hill] = Normal out
    /\ Forall (fun q => exists r,
                 power_score q = Some (Fin r) /\ 0 <= r <= 325) out.
Proof.
  apply (@calculatePowerScores_range [watched; hill]).
  repeat constructor.
  - exists 10, 10, 8. repeat split.
  - exists 93.4, 90.2, 4.1. repeat split.
Defined.

(** X5.  The score [scorePlayer] stores is monotone in the signals: a
    record whose three signals are each at least those of another gets a
    power score at least as high. *)
Theorem scorePlayer_monotone (p p' : PlayerRecord) (a b c a' b' c' r r' : Q) :
  performance_score p = Some (Fin a) ->
  projection_score p = Some (Fin b) ->
  sleeper_rating p = Some (Fin c) ->
  performance_score p' = Some (Fin a') ->
  projection_score p' = Some (Fin b') ->
  sleeper_rating p' = Some (Fin c') ->
  a <= a' -> b <= b' -> c <= c' ->
  scorePlayer p = Normal (with_power_score p (Fin r)) ->
  scorePlayer p' = Normal (with_power_score p' (Fin r')) ->
  r <= r'.
Proof.
  intros Ha Hb Hc Ha' Hb' Hc' La Lb Lc Hr Hr'.
  destruct (scorePlayer_fin p Ha Hb Hc) as (s & Hs & Rs).
  destruct (scorePlayer_fin p' Ha' Hb' Hc') as (s' & Hs' & Rs').
  rewrite Hs in Hr. rewrite Hs' in Hr'.
  injection Hr as <-. injection Hr' as <-.
  apply (rounded_1dp_mono Rs Rs').
  now apply power_score_spec_mono.
Qed.

Lemma scorePlayer_monotone_witness :
  scorePlayer watched = Normal (with_power_score watched (Fin (415 # 2)))
  /\ scorePlayer prospect = Normal (with_power_score prospect (Fin 241))
  /\ (415 # 2) <= 241.
Proof.
  split; [reflexivity|]. split; [reflexivity|].
  apply (@scorePlayer_monotone watched prospect
           10 10 8 20 30 8.9 (415 # 2) 241);
    try reflexivity; discriminate.
Defined.

(** X6.  For every collection, whatever signals its records have or
    lack, [calculatePowerScores] raises nothing; the output holds the
    input records, none dropped, repeated or changed in any property but
    [power_score], and every output record has a [power_score]. *)
Theorem calculatePowerScores_keeps_records (players : list PlayerRecord) :
  exists out : list PlayerRecord,
    calculatePowerScores players = Normal out
    /\ Permutation (map unscored out) (map unscored players)
    /\ Forall (fun q => power_score q <> None) out.
Proof.
  rewrite calculatePowerScores_eq. eexists. split; [reflexivity|].
  assert (P := Array_sort_perm byPowerScoreDesc (map annotate players)).
  split.
  - apply perm_trans with (map unscored (map annotate players)).
    + now apply Permutation_map.
    + rewrite map_map.
      erewrite map_ext; [apply Permutation_refl|].
      intros p. apply unscored_annotate.
  - eapply Permutation_Forall; [symmetry; exact P|].
    apply Forall_map. apply Forall_forall. intros p _.
    destruct (annotate_fields p) as (v & ->). discriminate.
Qed.

(** X7.  The result of [calculatePowerScores] does not depend on a
    [power_score] the input records already carry: overwriting or removing
    it on every record changes nothing. *)
Theorem calculatePowerScores_ignores_stale_score
  (players : list PlayerRecord) (stale : PlayerRecord -> num) :
  calculatePowerScores
    (map (fun p => with_power_score p (stale p)) players)
  = calculatePowerScores players
  /\ calculatePowerScores (map unscored players)
     = calculatePowerScores players.
Proof.
  rewrite !calculatePowerScores_eq, !map_map.
  split; f_equal; f_equal.
Qed.

(** X8.  Ranking is idempotent: for records whose three signals are
    finite numbers, [calculatePowerScores] applied to its own output
    returns that output unchanged. *)
Theorem calculatePowerScores_idempotent (players out : list PlayerRecord) :
  Forall has_signals players ->
  calculatePowerScores players = Normal out ->
  calculatePowerScores out = Normal out.
Proof.
  intros Hsig Hout. rewrite calculatePowerScores_eq in Hout.
  injection Hout as Hout.
  assert (P := Array_sort_perm byPowerScoreDesc (map annotate players)).
  rewrite Hout in P.
  assert (Hgood : Forall is_scored out).
  { eapply Permutation_Forall; [symmetry; exact P|].
    now apply annotate_all_scored. }
  assert (Hfix : map annotate out = out).
  { rewrite <- (map_id out) at 2. apply map_ext_in. intros q Hq.
    apply (Permutation_in _ P) in Hq. apply in_map_iff in Hq.
    destruct Hq as (p & <- & _). apply annotate_annotate. }
  rewrite calculatePowerScores_eq, Hfix. f_equal.
  apply (@Array_sort_sorted_id _ byPowerScoreDesc scoreQ is_scored
           byPowerScoreDesc_key out Hgood).
  rewrite <- Hout.
  apply (@Array_sort_sorted _ byPowerScoreDesc scoreQ is_scored
           byPowerScoreDesc_key (map annotate players)).
  now apply annotate_all_scored.
Qed.

Lemma calculatePowerScores_idempotent_witness :
  calculatePowerScores [hill; prospect; watched]
  = Normal [annotate prospect; annotate watched; annotate hill]
  /\ calculatePowerScores
       [annotate prospect; annotate watched; annotate hill]
     = Normal [annotate prospect; annotate watched; annotate hill].
Proof.
  assert (H : calculatePowerScores [hill; prospect; watched]
              = Normal [annotate prospect; annotate watched; annotate hill])
    by reflexivity.
  split; [exact H|].
  apply (@calculatePowerScores_idempotent [hill; prospect; watched]);
    [|exact H].
  repeat constructor.
  - exists 93.4, 90.2, 4.1. repeat split.
  - exists 20, 30, 8.9. repeat split.
  - exists 10, 10, 8. repeat split.
Defined.

(* ================================================================== *)
(** ** More on the sleeper classifier *)
(* ================================================================== *)

Section SleeperMore.

Lemma filter_sorted {A} (R : A -> A -> Prop) (f : A -> bool) (l : list A) :
  StronglySorted R l -> StronglySorted R (filter f l).
Proof.
  induction 1 as [|x l Hs IH Hx]; cbn [filter]; [constructor|].
  destruct (f x); [|exact IH].
  constructor; [exact IH|].
  rewrite Forall_forall in *. intros y Hy.
  apply filter_In in Hy. now apply Hx.
Qed.

Lemma firstn_In {A} (n : nat) (l : list A) (x : A) :
  In x (firstn n l) -> In x l.
Proof.
  intros H. rewrite <- (firstn_skipn n l). apply in_or_app. now left.
Qed.

Lemma firstn_sorted {A} (R : A -> A -> Prop) (n : nat) (l : list A) :
  StronglySorted R l -> StronglySorted R (firstn n l).
Proof.
  intros Hs. revert n. induction Hs as [|x l Hs IH Hx]; intros [|n];
    cbn [firstn]; try constructor.
  - apply IH.
  - rewrite Forall_forall in *. intros y Hy.
    apply Hx. eapply firstn_In. exact Hy.
Qed.

Lemma filter_filter_same {A} (f : A -> bool) (l : list A) :
  filter f (filter f l) = filter f l.
Proof.
  induction l as [|x l IH]; cbn [filter]; [reflexivity|].
  destruct (f x) eqn:E; [|exact IH].
  cbn [filter]. now rewrite E, IH.
Qed.

Lemma gtb_present (v : option num) (bound : num) :
  gtb (ToNumber v) bound = true -> v <> None.
Proof.
  destruct v; [intros _; discriminate|].
  cbn [ToNumber]. unfold gtb. destruct bound; intros H; discriminate H.
Qed.

Lemma sub_NaN_r (a : num) : sub a NaN = NaN.
Proof. now destruct a. Qed.

Lemma sub_present (a b : option num) (bound : num) :
  gtb (sub (ToNumber a) (ToNumber b)) bound = true ->
  a <> None /\ b <> None.
Proof.
  destruct a as [x|], b as [y|]; cbn [ToNumber]; intros H;
    try (split; discriminate); exfalso.
  - rewrite sub_NaN_r in H. destruct bound; discriminate H.
  - destruct bound; discriminate H.
  - destruct bound; discriminate H.
Qed.

(** A sleeper rating above 7.5 puts the stored power score above 187. *)
Lemma rated_score (p : PlayerRecord) (a b c : Q) :
  performance_score p = Some (Fin a) ->
  projection_score p = Some (Fin b) ->
  sleeper_rating p = Some (Fin c) ->
  7.5 < c ->
  exists r, annotate p = with_power_score p (Fin r) /\ 187 < r.
Proof.
  intros Ha Hb Hc Hrate.
  destruct (scorePlayer_fin p Ha Hb Hc) as (r & Hs & (_ & Hlo & Hhi)).
  exists r. split; [unfold annotate; now rewrite Hs|].
  assert (Na := normalize_spec_range a 0 100).
  assert (Nb := normalize_spec_range b 0 100).
  assert (Nc : 75 <= normalize_spec c 0 10).
  { assert (E : normalize_spec 7.5 0 10 == 75).
    { unfold normalize_spec.
      destruct (clamp_Q ((7.5 - 0) / (10 - 0) * 100)) as (_ & _ & H).
      rewrite H; [reflexivity | split; discriminate]. }
    rewrite <- E. apply normalize_spec_mono; [reflexivity | lra]. }
  unfold power_score_spec in Hhi. cbv zeta in Hhi. lra.
Qed.

End SleeperMore.

(** X9.  [identifySleepers] raises nothing on records that lack a
    property: a record without [sleeper_rating], without
    [expert_consensus_rank] or without [power_score] is left out of the
    result. *)
Theorem identifySleepers_needs_properties (players : list PlayerRecord) :
  exists out : list PlayerRecord,
    identifySleepers players = Normal out
    /\ Forall (fun p => sleeper_rating p <> None
                      /\ expert_consensus_rank p <> None
                      /\ power_score p <> None) out.
Proof.
  eexists. split; [reflexivity|].
  apply Forall_forall. intros p Hp. apply filter_In in Hp.
  destruct Hp as [_ Hp]. unfold isSleeper in Hp.
  apply Bool.andb_true_iff in Hp. destruct Hp as [Hp _].
  apply Bool.andb_true_iff in Hp. destruct Hp as [H1 H2].
  split; [exact (@gtb_present _ _ H1)|].
  exact (@sub_present _ _ _ H2).
Qed.

(** X10.  Classifying a freshly ranked collection: for records whose
    three signals are finite numbers, the sleepers [identifySleepers]
    picks from the output of [calculatePowerScores] come in descending
    order of power score, each has a power score above 187 (its sleeper
    term alone exceeds 187.5) and therefore an expert consensus rank above
    197. *)
Theorem sleepers_of_ranking (players : list PlayerRecord) :
  Forall has_signals players ->
  exists ranked sleepers : list PlayerRecord,
    calculatePowerScores players = Normal ranked
    /\ identifySleepers ranked = Normal sleepers
    /\ StronglySorted outranks sleepers
    /\ Forall (fun p =>
                 (exists r, power_score p = Some (Fin r) /\ 187 < r)
                 /\ num_lt (Fin 197) (ToNumber (expert_consensus_rank p)))
         sleepers.
Proof.
  intros Hsig. rewrite calculatePowerScores_eq.
  set (ranked := Array_sort byPowerScoreDesc (map annotate players)).
  exists ranked, (filter isSleeper ranked).
  split; [reflexivity|]. split; [reflexivity|].
  assert (P : Permutation ranked (map annotate players))
    by apply Array_sort_perm.
  split.
  - apply filter_sorted.
    apply (ranking_of_scored (annotate_all_scored Hsig)).
  - apply Forall_forall. intros s Hs. apply filter_In in Hs.
    destruct Hs as [Hin Hs].
    apply (Permutation_in _ P) in Hin. apply in_map_iff in Hin.
    destruct Hin as (p & <- & Hp).
    rewrite Forall_forall in Hsig.
    destruct (Hsig p Hp) as (a & b & c & Ha & Hb & Hc).
    unfold isSleeper in Hs.
    apply Bool.andb_true_iff in Hs. destruct Hs as [Hs _].
    apply Bool.andb_true_iff in Hs. destruct Hs as [H1 H2].
    assert (Hrate : 7.5 < c).
    { change (sleeper_rating (annotate p)) with (sleeper_rating p) in H1.
      rewrite Hc in H1. now apply Qltb_spec in H1. }
    destruct (rated_score p Ha Hb Hc Hrate) as (r & Er & Hr).
    rewrite Er in *. cbn [power_score with_power_score] in *.
    split; [exists r; split; [reflexivity | exact Hr]|].
    change (expert_consensus_rank (with_power_score p (Fin r)))
      with (expert_consensus_rank p) in *.
    destruct (expert_consensus_rank p) as [[| | |k]|];
      try discriminate H2; [exact I|].
    cbn [ToNumber num_lt]. cbn [ToNumber sub] in H2.
    unfold gtb, ltb, fin in H2. apply Qltb_spec in H2.
    rewrite Qred_correct in H2. lra.
Qed.

Lemma sleepers_of_ranking_witness :
  exists ranked sleepers : list PlayerRecord,
    calculatePowerScores [hill; prospect; watched] = Normal ranked
    /\ identifySleepers ranked = Normal sleepers
    /\ StronglySorted outranks sleepers
    /\ Forall (fun p =>
                 (exists r, power_score p = Some (Fin r) /\ 187 < r)
                 /\ num_lt (Fin 197) (ToNumber (expert_consensus_rank p)))
         sleepers.
Proof.
  apply (@sleepers_of_ranking [hill; prospect; watched]).
  repeat constructor.
  - exists 93.4, 90.2, 4.1. repeat split.
  - exists 20, 30, 8.9. repeat split.
  - exists 10, 10, 8. repeat split.
Defined.

(** X11.  [identifySleepers] is idempotent and never lengthens a
    collection: applied to its own output it returns that output
    unchanged. *)
Theorem identifySleepers_idempotent (players : list PlayerRecord) :
  exists out : list PlayerRecord,
    identifySleepers players = Normal out
    /\ identifySleepers out = Normal out
    /\ (List.length out <= List.length players)%nat.
Proof.
  exists (filter isSleeper players). split; [reflexivity|]. split.
  - unfold identifySleepers. now rewrite filter_filter_same.
  - apply filter_length_le.
Qed.

(* ================================================================== *)
(** ** The components *)
(* ================================================================== *)

Section ComponentFacts.

(** [slice(0, n)] is the first [n] elements. *)
Lemma slice_first {A} (n : nat) (l : list A) :
  Array_slice 0 (Some (Z.of_nat n)) l = firstn n l.
Proof.
  unfold Array_slice, slice_index. cbn [Z.ltb Z.compare].
  assert (Hneg : (Z.of_nat n <? 0)%Z = false) by (apply Z.ltb_ge; lia).
  rewrite Hneg.
  assert (H0 : Z.min 0 (Z.of_nat (List.length l)) = 0%Z) by lia.
  rewrite H0. cbn [Z.to_nat skipn]. rewrite Z.sub_0_r.
  assert (Hm : Z.to_nat (Z.min (Z.of_nat n) (Z.of_nat (List.length l)))
               = Nat.min n (List.length l)) by lia.
  rewrite Hm.
  destruct (Nat.le_ge_cases n (List.length l)) as [H|H].
  - now rewrite Nat.min_l.
  - rewrite Nat.min_r by exact H. rewrite firstn_all.
    symmetry. now apply firstn_all2.
Qed.

Lemma alertSleepers_eq (players : list PlayerRecord) :
  alertSleepers players = firstn 5 (filter ratedSleeper players).
Proof. apply (slice_first 5). Qed.


Lemma isSleeper_rated (p : PlayerRecord) :
  isSleeper p = true -> ratedSleeper p = true.
Proof.
  unfold isSleeper, ratedSleeper. intros H.
  apply Bool.andb_true_iff in H. destruct H as [H _].
  apply Bool.andb_true_iff in H. apply H.
Qed.



Lemma mapi_from_In {A B} (f : A -> nat -> B) (k : nat) (l : list A) (y : B) :
  In y (mapi_from f k l) -> exists x i, In x l /\ y = f x i.
Proof.
  revert k. induction l as [|x l IH]; intros k; cbn; [tauto|].
  intros [<-|H].
  - exists x, k. auto.
  - destruct (IH _ H) as (x' & i & Hx & ->). exists x', i. auto.
Qed.

Lemma mapi_from_sorted {A B} (R : A -> A -> Prop) (R' : B -> B -> Prop)
  (f : A -> nat -> B) (k : nat) (l : list A) :
  (forall a b i j, R a b -> R' (f a i) (f b j)) ->
  StronglySorted R l -> StronglySorted R' (mapi_from f k l).
Proof.
  intros Hf Hs. revert k.
  induction Hs as [|x l Hs IH Hx]; intros k; cbn; constructor.
  - apply IH.
  - apply Forall_forall. intros y Hy.
    destruct (mapi_from_In _ _ _ _ Hy) as (x' & i & Hin & ->).
    rewrite Forall_forall in Hx. apply Hf. now apply Hx.
Qed.

Lemma PlayerRankings_eq (players : list PlayerRecord) (sel : string) :
  PlayerRankings players sel
  = Array_mapi
      (fun player index =>
         {| row_key := id player;
            row_rank := index + 1;
            row_name := player_name player;
            row_team := team player;
            row_pos := position player;
            row_power := power_score player;
            row_sleeper := if ratedSleeper player then "Yes" else "No" |})
      (firstn 25 (filteredPlayers players sel)).
Proof. unfold PlayerRankings. now rewrite (slice_first 25). Qed.

End ComponentFacts.


(** X13.  Every record [identifySleepers] returns is a candidate of the
    alerts panel, which tests the sleeper rating only; when the
    collection has at most five candidates the panel shows every such
    record. *)
Theorem identifySleepers_within_alerts (players : list PlayerRecord) :
  exists out : list PlayerRecord,
    identifySleepers players = Normal out
    /\ (forall p, In p out -> In p (filter ratedSleeper players))
    /\ ((List.length (filter ratedSleeper players) <= 5)%nat ->
        match SleeperAlerts players with
        | Some cards => forall p, In p out -> In p cards
        | None => out = []
        end).
Proof.
  exists (filter isSleeper players). split; [reflexivity|].
  assert (Hsub : forall p, In p (filter isSleeper players) ->
                           In p (filter ratedSleeper players)).
  { intros p Hp. apply filter_In in Hp. apply filter_In.
    split; [apply Hp | apply isSleeper_rated, Hp]. }
  split; [exact Hsub|].
  intros Hfew. unfold SleeperAlerts. cbv zeta. rewrite alertSleepers_eq.
  rewrite firstn_all2 by exact Hfew.
  destruct (Nat.eqb (List.length (filter ratedSleeper players)) 0) eqn:E.
  - apply Nat.eqb_eq in E.
    destruct (filter isSleeper players) as [|p l] eqn:El; [reflexivity|].
    assert (Hin : In p (filter ratedSleeper players)).
    { apply Hsub. now left. }
    destruct (filter ratedSleeper players); [destruct Hin | discriminate E].
  - exact Hsub.
Qed.


(** X15.  Fed with the output of [calculatePowerScores] for records whose
    three signals are finite numbers, the rankings table lists its rows in
    descending order of power score under every position selection: the
    row numbered 1 has the highest power score shown. *)
Theorem PlayerRankings_of_ranking (players : list PlayerRecord)
  (sel : string) :
  Forall has_signals players ->
  exists ranked : list PlayerRecord,
    calculatePowerScores players = Normal ranked
    /\ StronglySorted row_outranks (PlayerRankings ranked sel).
Proof.
  intros Hsig. rewrite calculatePowerScores_eq. eexists.
  split; [reflexivity|].
  rewrite PlayerRankings_eq. unfold Array_mapi.
  apply mapi_from_sorted with (R := outranks).
  - intros a b i j (x & y & Ha & Hb & Hxy). exists x, y. auto.
  - apply firstn_sorted. unfold filteredPlayers.
    assert (Hs := proj1 (ranking_of_scored (annotate_all_scored Hsig))).
    destruct (String.eqb sel "all"); [exact Hs|].
    now apply filter_sorted.
Qed.

Lemma PlayerRankings_of_ranking_witness :
  exists ranked : list PlayerRecord,
    calculatePowerScores [hill; prospect; watched] = Normal ranked
    /\ StronglySorted row_outranks (PlayerRankings ranked "WR").
Proof.
  apply (@PlayerRankings_of_ranking [hill; prospect; watched] "WR").
  repeat constructor.
  - exists 93.4, 90.2, 4.1. repeat split.
  - exists 20, 30, 8.9. repeat split.
  - exists 10, 10, 8. repeat split.
Defined.

(* ================================================================== *)
(** ** More on the trend analyser *)
(* ================================================================== *)

Section TrendMore.

Lemma slice_prior_gen {A} (l : list A) :
  Array_slice (-8) (Some (-4)%Z) l
  = firstn (List.length l - 4 - (List.length l - 8))
      (skipn (List.length l - 8) l).
Proof.
  unfold Array_slice, slice_index. cbn [Z.ltb Z.compare].
  set (n := List.length l).
  assert (Hk : Z.to_nat (Z.max (Z.of_nat n + -8) 0) = (n - 8)%nat) by lia.
  assert (Hf : Z.to_nat (Z.max (Z.of_nat n + -4) 0
                         - Z.max (Z.of_nat n + -8) 0)
               = (n - 4 - (n - 8))%nat) by lia.
  now rewrite Hk, Hf.
Qed.

Lemma skipn_app_exact {A} (l1 l2 : list A) (k : nat) :
  skipn (List.length l1 + k) (l1 ++ l2) = skipn k l2.
Proof.
  rewrite skipn_app.
  rewrite skipn_all2 by lia.
  cbn [app]. f_equal. lia.
Qed.

Lemma last_eight_slices {A} (old w : list A) :
  List.length w = 8%nat ->
  Array_slice (-4) None (old ++ w) = skipn 4 w
  /\ Array_slice (-8) (Some (-4)%Z) (old ++ w) = firstn 4 w.
Proof.
  intros Hw. split.
  - rewrite slice_recent, length_app, Hw.
    replace (List.length old + 8 - 4)%nat with (List.length old + 4)%nat
      by lia.
    apply skipn_app_exact.
  - rewrite slice_prior_gen, length_app, Hw.
    replace (List.length old + 8 - 8)%nat with (List.length old + 0)%nat
      by lia.
    rewrite skipn_app_exact. cbn [skipn]. f_equal. lia.
Qed.


Lemma gtb_NaN (x : num) : gtb NaN x = false.
Proof. now destruct x. Qed.



End TrendMore.

(** X16.  [analyzeTrends] reads the last eight entries only: entries
    older than those do not change its result. *)
Theorem analyzeTrends_last_eight (old : list GameRecord)
  (p1 p2 p3 p4 g1 g2 g3 g4 : GameRecord) :
  analyzeTrends (old ++ [p1; p2; p3; p4; g1; g2; g3; g4])
  = analyzeTrends [p1; p2; p3; p4; g1; g2; g3; g4].
Proof.
  set (w := [p1; p2; p3; p4; g1; g2; g3; g4]).
  assert (Hw : List.length w = 8%nat) by reflexivity.
  destruct (last_eight_slices old w Hw) as [R P].
  destruct (last_eight_slices [] w Hw) as [R0 P0].
  cbn [app] in R0, P0.
  unfold analyzeTrends, trendScoreOf, priorAverageOf.
  now rewrite R, P, R0, P0.
Qed.

Section EightEntryFacts.


End EightEntryFacts.


Section ShortLogFacts.






End ShortLogFacts.


Section MissingPointsFacts.

Lemma weighted4_NaN (g1 g2 g3 g4 : GameRecord) :
  points g1 = NaN \/ points g2 = NaN \/ points g3 = NaN \/ points g4 = NaN ->
  weighted4 g1 g2 g3 g4 = NaN.
Proof.
  unfold weighted4.
  intros [H|[H|[H|H]]]; rewrite H;
    rewrite ?mul_NaN_l, ?add_NaN_r, ?add_NaN_l; reflexivity.
Qed.

Lemma recent_of_app (old : list GameRecord) (g1 g2 g3 g4 : GameRecord) :
  trendScoreOf (old ++ [g1; g2; g3; g4])
  = div (weighted4 g1 g2 g3 g4) (Fin 4).
Proof.
  apply trendScoreOf_four. rewrite length_app. cbn [List.length].
  replace (List.length old + 4 - 4)%nat with (List.length old + 0)%nat
    by lia.
  apply skipn_app_exact.
Qed.

End MissingPointsFacts.

(** X19.  When one of the last four entries has no point total (its
    [points] is [NaN], as for an absent property), [analyzeTrends] raises
    nothing and returns the direction Down with the trend score [NaN],
    whatever the other entries are. *)
Theorem analyzeTrends_missing_points (old : list GameRecord)
  (g1 g2 g3 g4 : GameRecord) :
  points g1 = NaN \/ points g2 = NaN \/ points g3 = NaN \/ points g4 = NaN ->
  analyzeTrends (old ++ [g1; g2; g3; g4])
  = Normal {| trend_direction := "Down"; trend_score := NaN |}.
Proof.
  intros H. rewrite analyzeTrends_eq, recent_of_app, (weighted4_NaN _ _ _ _ H).
  change (div NaN (Fin 4)) with NaN. now rewrite gtb_NaN.
Qed.

Lemma analyzeTrends_missing_points_witness :
  analyzeTrends (four_games ++ [mkGame (Fin 30); mkGame NaN;
                                 mkGame (Fin 40); mkGame (Fin 50)])
  = Normal {| trend_direction := "Down"; trend_score := NaN |}.
Proof.
  apply (@analyzeTrends_missing_points four_games).
  right. left. reflexivity.
Defined.


